(** * chebyshev.py: Chebyshev polynomials, Horner and Clenshaw evaluation

    A shallow embedding of [chebyshev.py], in two layers.

    - The functions on Python ints, where all arithmetic is exact: scalars
      are [Z].  The generator only ever computes on ints.
    - The same functions on Python numbers, ints or floats (module [Num]):
      a float is an IEEE binary64, arithmetic between an int and a float
      converts the int, and a conversion that overflows raises.  On ints the
      second layer computes what the first does (section "Ints inside
      Python numbers").

    Python exceptions are modelled by an error monad: every operation that
    can raise returns a [result]. *)

From Stdlib Require Import ZArith List Lia Bool.
From Stdlib Require Import Floats.
Import ListNotations.
Open Scope Z_scope.

(** ** Python runtime: exceptions, indexing, slices, iterators *)

Module Py.

Inductive exn : Type :=
| IndexError
| AssertionError
| OverflowError.

Inductive result (A : Type) : Type :=
| Ok (a : A)
| Raise (e : exn).

Arguments Ok {A} a.
Arguments Raise {A} e.

Definition bind {A B : Type} (m : result A) (k : A -> result B) : result B :=
  match m with
  | Ok a => k a
  | Raise e => Raise e
  end.

(** [len(l)] *)
Definition len {A : Type} (l : list A) : Z := Z.of_nat (length l).

(** [l[i]]: a negative index counts from the end; out of range raises. *)
Definition getitem {A : Type} (l : list A) (i : Z) : result A :=
  let j := if i <? 0 then i + len l else i in
  if (0 <=? j) && (j <? len l) then
    match nth_error l (Z.to_nat j) with
    | Some a => Ok a
    | None => Raise IndexError
    end
  else Raise IndexError.

(** [l[k:]] for a literal [k >= 0]. *)
Definition slice_from {A : Type} (k : nat) (l : list A) : list A := skipn k l.

(** [l[:k]]: a negative bound counts from the end; never raises. *)
Definition slice_to {A : Type} (l : list A) (k : Z) : list A :=
  if k <? 0 then firstn (Z.to_nat (len l + k)) l else firstn (Z.to_nat k) l.

(** [range(a, b)] *)
Definition range (a b : Z) : list Z :=
  map (fun k => a + Z.of_nat k) (seq 0 (Z.to_nat (b - a))).

(** [sum(l)]: starts from 0 and adds the items from left to right. *)
Definition sum (l : list Z) : Z := fold_left Z.add l 0.

(** [zip(xs, ys)]: stops at the shorter argument. *)
Definition zip {A B : Type} (xs : list A) (ys : list B) : list (A * B) :=
  combine xs ys.

(** [itertools.zip_longest(xs, ys, fillvalue=fill)]: pairs, until both
    arguments are exhausted; the exhausted one gives [fill]. *)
Fixpoint zip_longest2 {A : Type} (xs ys : list A) (fill : A) : list (A * A) :=
  match xs with
  | [] => map (fun y => (fill, y)) ys
  | x :: xs' =>
      match ys with
      | [] => (x, fill) :: zip_longest2 xs' [] fill
      | y :: ys' => (x, y) :: zip_longest2 xs' ys' fill
      end
  end.

(** The number of tuples [zip_longest] yields on the unpacked argument list
    [its]: the length of the longest iterator. *)
Definition longest {A : Type} (its : list (list A)) : nat :=
  fold_right (fun it m => Nat.max (length it) m) 0%nat its.

(** [zip_longest], round by round: each round takes the next item of
    every iterator, [fill] for an exhausted one; the tuple is a list. *)
Fixpoint zip_longest_rounds {A : Type} (n : nat) (its : list (list A)) (fill : A)
  : list (list A) :=
  match n with
  | O => []
  | S n' => map (hd fill) its :: zip_longest_rounds n' (map (@tl A) its) fill
  end.

(** [itertools.zip_longest] on the unpacked list [its], [fillvalue=fill]. *)
Definition zip_longest {A : Type} (its : list (list A)) (fill : A) : list (list A) :=
  zip_longest_rounds (longest its) its fill.

(** A [for] loop whose body can raise. *)
Fixpoint for_each {A S : Type} (xs : list A) (body : S -> A -> result S) (s : S)
  : result S :=
  match xs with
  | [] => Ok s
  | x :: xs' => bind (body s x) (for_each xs' body)
  end.

End Py.

Import Py.

Notation "x <- m ;; k" := (bind m (fun x => k))
  (at level 61, m at next level, right associativity).

(** ** The source functions *)

(** [linear_combination(polys, weights)] *)
Definition linear_combination (polys : list (list Z)) (weights : list Z)
  : result (list Z) :=
  if negb (len weights =? len polys) then Raise AssertionError
  else
    Ok (map (fun coeffs => sum (map (fun '(c, x) => c * x) (zip weights coeffs)))
            (zip_longest polys 0)).

(** The comprehension of the loop body of [generate_chebyshev_polynomials]:
    [[2 * x - y for (x, y) in zip_longest(x_k_minus_1, k_minus_2, fillvalue=0)]]. *)
Definition next_polynomial (x_k_minus_1 k_minus_2 : list Z) : list Z :=
  map (fun '(x, y) => 2 * x - y) (zip_longest2 x_k_minus_1 k_minus_2 0).

(** [generate_chebyshev_polynomials(count)] *)
Definition generate_chebyshev_polynomials (count : Z) : result (list (list Z)) :=
  if count <? 1 then Ok []
  else
    let polynomials := [[1]; [0; 2]] in
    if count <=? 2 then Ok (slice_to polynomials count)
    else
      for_each (range 2 count)
        (fun polynomials _ =>
           p1 <- getitem polynomials (-1) ;;
           let x_k_minus_1 := [0] ++ p1 in
           k_minus_2 <- getitem polynomials (-2) ;;
           let next := next_polynomial x_k_minus_1 k_minus_2 in
           Ok (polynomials ++ [next]))
        polynomials.

(** [poly_eval(poly, x)] *)
Definition poly_eval (poly : list Z) (x : Z) : Z :=
  fold_left (fun acc c => acc * x + c) (rev poly) 0.

(** [clenshaw_eval(coefficients, value, basis_0, basis_1, alpha, beta)] *)
Definition clenshaw_eval (coefficients : list Z) (value : Z)
  (basis_0 basis_1 alpha beta : list Z) : result Z :=
  let alpha_x := poly_eval alpha value in
  let beta_x := poly_eval beta value in
  let basis_0_x := poly_eval basis_0 value in
  let basis_1_x := poly_eval basis_1 value in
  let b :=
    fold_left (fun (b : Z * Z) c =>
                 let b_k := c + alpha_x * fst b + beta_x * snd b in
                 (b_k, fst b))
              (rev (slice_from 1 coefficients)) (0, 0) in
  c0 <- getitem coefficients 0 ;;
  Ok (basis_0_x * c0 + basis_1_x * fst b + beta_x * basis_0_x * snd b).

(** [cheb_eval(coefficients, x)] *)
Definition cheb_eval (coefficients : list Z) (x : Z) : result Z :=
  basis <- generate_chebyshev_polynomials 2 ;;
  let alpha := [0; 2] in
  let beta := [-1] in
  b0 <- getitem basis 0 ;;
  b1 <- getitem basis 1 ;;
  clenshaw_eval coefficients x b0 b1 alpha beta.

(** ** Reference definitions, following the specification's words *)

(** [big_sum n f] is the sum of [f k] for [k = 0 .. n-1]. *)
Fixpoint big_sum (n : nat) (f : nat -> Z) : Z :=
  match n with
  | O => 0
  | S n' => big_sum n' f + f n'
  end.

(** The direct naive sum of [P[i] * x**i] over all indices [i]. *)
Definition naive_eval (P : list Z) (x : Z) : Z :=
  big_sum (length P) (fun i => nth i P 0 * x ^ Z.of_nat i).

(** The value [T_k] of the basis given by a three-term recurrence:
    [T_0 = t0], [T_1 = t1], [T_k = a * T_{k-1} + b * T_{k-2}] for [k >= 2]. *)
Fixpoint recurrence_basis (t0 t1 a b : Z) (k : nat) : Z :=
  match k with
  | O => t0
  | S k1 =>
      match k1 with
      | O => t1
      | S k2 => a * recurrence_basis t0 t1 a b k1 + b * recurrence_basis t0 t1 a b k2
      end
  end.

(** The basis values at [x] of a recurrence descriptor given as polynomials. *)
Definition descriptor_basis (basis_0 basis_1 alpha beta : list Z) (x : Z) : nat -> Z :=
  recurrence_basis (poly_eval basis_0 x) (poly_eval basis_1 x)
                   (poly_eval alpha x) (poly_eval beta x).

(** The series [sum_k c_k * T_k]. *)
Definition series_sum (c : list Z) (T : nat -> Z) : Z :=
  big_sum (length c) (fun k => nth k c 0 * T k).

(** The k-th Chebyshev polynomial in the monomial basis, by the recurrence
    of the docstring: [T_0 = 1], [T_1 = 2x], [T_k = 2x T_{k-1} - T_{k-2}]. *)
Fixpoint cheb_poly (k : nat) : list Z :=
  match k with
  | O => [1]
  | S k1 =>
      match k1 with
      | O => [0; 2]
      | S k2 => next_polynomial (0 :: cheb_poly k1) (cheb_poly k2)
      end
  end.

(** The rolling pair [b] of [clenshaw_eval] after its loop has run over the
    reversed list [cs] (the coefficients after the constant term). *)
Definition clenshaw_loop (alpha_x beta_x : Z) (cs : list Z) : Z * Z :=
  fold_left (fun (b : Z * Z) c =>
               let b_k := c + alpha_x * fst b + beta_x * snd b in
               (b_k, fst b))
            (rev cs) (0, 0).

(** The item [linear_combination] computes from one tuple [coeffs] of
    [zip_longest]: [sum([c * x for (c, x) in zip(weights, coeffs)])]. *)
Definition weighted_sum (weights coeffs : list Z) : Z :=
  sum (map (fun '(c, x) => c * x) (zip weights coeffs)).

(** ** Python numbers: ints and floats *)

Module Num.

(** A Python number: an [int] (unbounded) or a [float] (binary64). *)
Inductive num : Type :=
| Int (z : Z)
| Float (f : float).

(** The conversion of an int operand that meets a float: correctly rounded,
    ties to even; [OverflowError] ("int too large to convert to float")
    when the rounded value is out of range. *)
Definition float_of_int (z : Z) : result float :=
  let f := SF2Prim (binary_normalize prec emax z 0 false) in
  if PrimFloat.is_infinity f then Raise OverflowError else Ok f.

Definition to_float (a : num) : result float :=
  match a with
  | Int z => float_of_int z
  | Float f => Ok f
  end.

(** A binary arithmetic operator: exact on two ints, binary64 otherwise.
    Float arithmetic itself never raises: it overflows to an infinity. *)
Definition arith (int_op : Z -> Z -> Z) (float_op : float -> float -> float)
  (a b : num) : result num :=
  match a, b with
  | Int x, Int y => Ok (Int (int_op x y))
  | _, _ => fa <- to_float a ;; fb <- to_float b ;; Ok (Float (float_op fa fb))
  end.

(** [a + b], [a - b], [a * b] *)
Definition add : num -> num -> result num := arith Z.add PrimFloat.add.
Definition sub : num -> num -> result num := arith Z.sub PrimFloat.sub.
Definition mul : num -> num -> result num := arith Z.mul PrimFloat.mul.

(** A list comprehension whose items can raise, evaluated left to right. *)
Fixpoint comprehension {A B : Type} (f : A -> result B) (l : list A) : result (list B) :=
  match l with
  | [] => Ok []
  | a :: l' => b <- f a ;; bs <- comprehension f l' ;; Ok (b :: bs)
  end.

(** [sum(l)]: starts from the int 0 and adds the items from left to right. *)
Definition sum (l : list num) : result num := for_each l add (Int 0).

(** [linear_combination(polys, weights)] *)
Definition linear_combination (polys : list (list num)) (weights : list num)
  : result (list num) :=
  if negb (len weights =? len polys) then Raise AssertionError
  else
    comprehension
      (fun coeffs =>
         products <- comprehension (fun '(c, x) => mul c x) (zip weights coeffs) ;;
         sum products)
      (zip_longest polys (Int 0)).

(** [generate_chebyshev_polynomials(count)]: the generator computes on int
    literals only, so its polynomials are lists of ints. *)
Definition generate_chebyshev_polynomials (count : Z) : result (list (list num)) :=
  polynomials <- generate_chebyshev_polynomials count ;;
  Ok (map (map Int) polynomials).

(** [poly_eval(poly, x)] *)
Definition poly_eval (poly : list num) (x : num) : result num :=
  for_each (rev poly) (fun acc c => t <- mul acc x ;; add t c) (Int 0).

(** [clenshaw_eval(coefficients, value, basis_0, basis_1, alpha, beta)] *)
Definition clenshaw_eval (coefficients : list num) (value : num)
  (basis_0 basis_1 alpha beta : list num) : result num :=
  alpha_x <- poly_eval alpha value ;;
  beta_x <- poly_eval beta value ;;
  basis_0_x <- poly_eval basis_0 value ;;
  basis_1_x <- poly_eval basis_1 value ;;
  b <- for_each (rev (slice_from 1 coefficients))
         (fun (b : num * num) c =>
            t1 <- mul alpha_x (fst b) ;;
            s1 <- add c t1 ;;
            t2 <- mul beta_x (snd b) ;;
            b_k <- add s1 t2 ;;
            Ok (b_k, fst b))
         (Int 0, Int 0) ;;
  c0 <- getitem coefficients 0 ;;
  t0 <- mul basis_0_x c0 ;;
  t1 <- mul basis_1_x (fst b) ;;
  s1 <- add t0 t1 ;;
  t2 <- mul beta_x basis_0_x ;;
  t3 <- mul t2 (snd b) ;;
  add s1 t3.

(** [cheb_eval(coefficients, x)] *)
Definition cheb_eval (coefficients : list num) (x : num) : result num :=
  basis <- generate_chebyshev_polynomials 2 ;;
  let alpha := [Int 0; Int 2] in
  let beta := [Int (-1)] in
  b0 <- getitem basis 0 ;;
  b1 <- getitem basis 1 ;;
  clenshaw_eval coefficients x b0 b1 alpha beta.

(** The expand-then-evaluate path of the repository's [test_cheby_eval]:
    [poly_eval(linear_combination(generate_chebyshev_polynomials(len(c)), c), x)]. *)
Definition expand_then_eval (coefficients : list num) (x : num) : result num :=
  fns <- generate_chebyshev_polynomials (len coefficients) ;;
  p <- linear_combination fns coefficients ;;
  poly_eval p x.

(** Reference definitions on Python numbers, following the specification's
    words, each sum taken from left to right. *)

(** [x ** i] for [i >= 0], by repeated multiplication as the repository's
    test writes it ([x * x * x]). *)
Fixpoint pow (x : num) (i : nat) : result num :=
  match i with
  | O => Ok (match x with Int _ => Int 1 | Float _ => Float 1 end)
  | S i' => p <- pow x i' ;; mul p x
  end.

(** The direct naive sum of [P[i] * x**i] over all indices [i]. *)
Definition naive_eval (P : list num) (x : num) : result num :=
  terms <- comprehension (fun '(i, c) => p <- pow x i ;; mul c p)
             (zip (seq 0 (length P)) P) ;;
  sum terms.

(** The value [T_k] of the three-term recurrence. *)
Fixpoint recurrence_basis (t0 t1 a b : num) (k : nat) : result num :=
  match k with
  | O => Ok t0
  | S k1 =>
      match k1 with
      | O => Ok t1
      | S k2 =>
          tk1 <- recurrence_basis t0 t1 a b k1 ;;
          tk2 <- recurrence_basis t0 t1 a b k2 ;;
          l <- mul a tk1 ;;
          r <- mul b tk2 ;;
          add l r
      end
  end.

(** The series [sum_k c_k * T_k(x)] of a recurrence descriptor. *)
Definition series_sum (c : list num) (x : num) (basis_0 basis_1 alpha beta : list num)
  : result num :=
  t0 <- poly_eval basis_0 x ;;
  t1 <- poly_eval basis_1 x ;;
  a <- poly_eval alpha x ;;
  b <- poly_eval beta x ;;
  terms <- comprehension (fun '(k, ck) => tk <- recurrence_basis t0 t1 a b k ;; mul ck tk)
             (zip (seq 0 (length c)) c) ;;
  sum terms.

End Num.

(** A result on ints, seen as a result on Python numbers. *)
Definition int_result (r : result Z) : result Num.num :=
  v <- r ;; Ok (Num.Int v).

(** Concrete runs: the repository's tests. *)

Example test_generate_5 :
  generate_chebyshev_polynomials 5
  = Ok [[1]; [0; 2]; [-1; 0; 4]; [0; -4; 0; 8]; [1; 0; -12; 0; 16]].
Proof. reflexivity. Qed.

Example test_poly_eval : poly_eval [1; 2; 3; 4] 3 = 1 + 2 * 3 + 3 * 3 * 3 + 4 * 3 * 3 * 3.
Proof. reflexivity. Qed.

Example test_clenshaw_eval :
  clenshaw_eval [1; 2; 3; 4] 3 [1] [0; 1] [0; 1] [0] = Ok (poly_eval [1; 2; 3; 4] 3).
Proof. reflexivity. Qed.

Example test_cheby_eval :
  (fns <- generate_chebyshev_polynomials 3 ;;
   p <- linear_combination fns [1; 2; 3] ;;
   Ok (poly_eval p 4))
  = cheb_eval [1; 2; 3] 4.
Proof. reflexivity. Qed.

(** The same tests on Python numbers, and two runs on floats. *)

Example test_poly_eval_num :
  Num.poly_eval [Num.Int 1; Num.Int 2; Num.Int 3; Num.Int 4] (Num.Int 3) = Ok (Num.Int 142).
Proof. reflexivity. Qed.

Example test_cheby_eval_num :
  Num.expand_then_eval [Num.Int 1; Num.Int 2; Num.Int 3] (Num.Int 4)
  = Num.cheb_eval [Num.Int 1; Num.Int 2; Num.Int 3] (Num.Int 4).
Proof. reflexivity. Qed.

Example poly_eval_float_run :
  Num.poly_eval [Num.Int 1; Num.Int 2; Num.Int 3; Num.Int 4] (Num.Float 3)
  = Ok (Num.Float 142).
Proof. vm_compute. reflexivity. Qed.

Example mul_int_too_large :
  Num.mul (Num.Int (10 ^ 400)) (Num.Float 1) = Raise OverflowError.
Proof. vm_compute. reflexivity. Qed.

(** ** Indexing the first item *)

Lemma getitem_0_cons {A : Type} (a : A) (l : list A) : getitem (a :: l) 0 = Ok a.
Proof.
  unfold getitem, len. cbn [Z.ltb Z.compare length nth_error Z.to_nat].
  replace (0 <=? 0) with true by reflexivity.
  replace (0 <? Z.of_nat (S (length l))) with true; [reflexivity|].
  symmetry. apply Z.ltb_lt. lia.
Qed.

Lemma getitem_0_nil {A : Type} : getitem (@nil A) 0 = Raise IndexError.
Proof. reflexivity. Qed.

(** ** Finite sums *)

Lemma big_sum_ext (n : nat) (f g : nat -> Z) :
  (forall k, (k < n)%nat -> f k = g k) -> big_sum n f = big_sum n g.
Proof.
  induction n as [|n IH]; intros E; simpl; [reflexivity|].
  rewrite IH by (intros; apply E; lia). rewrite E by lia. reflexivity.
Qed.

Lemma big_sum_shift (n : nat) (f : nat -> Z) :
  big_sum (S n) f = f O + big_sum n (fun k => f (S k)).
Proof.
  induction n as [|n IH]; [simpl; ring|].
  change (big_sum (S (S n)) f) with (big_sum (S n) f + f (S n)).
  rewrite IH. simpl. ring.
Qed.

Lemma big_sum_scale (n : nat) (a : Z) (f : nat -> Z) :
  big_sum n (fun k => a * f k) = a * big_sum n f.
Proof. induction n as [|n IH]; simpl; [ring|]. rewrite IH. ring. Qed.

Lemma big_sum_zero (n : nat) : big_sum n (fun _ => 0) = 0.
Proof. induction n as [|n IH]; simpl; [reflexivity|]. rewrite IH. ring. Qed.

(** ** Horner evaluation *)

Lemma poly_eval_cons (c : Z) (p : list Z) (x : Z) :
  poly_eval (c :: p) x = c + x * poly_eval p x.
Proof.
  unfold poly_eval. simpl rev. rewrite fold_left_app. simpl. ring.
Qed.

Lemma poly_eval_hd_tl (p : list Z) (x : Z) :
  poly_eval p x = hd 0 p + x * poly_eval (tl p) x.
Proof.
  destruct p as [|c p]; [cbn; ring|]. apply poly_eval_cons.
Qed.

Lemma poly_eval_naive (P : list Z) (x : Z) : poly_eval P x = naive_eval P x.
Proof.
  induction P as [|c P IH]; [reflexivity|].
  rewrite poly_eval_cons, IH. unfold naive_eval.
  cbn [length]. rewrite big_sum_shift. cbn [nth]. rewrite Z.pow_0_r.
  rewrite <- big_sum_scale. f_equal; [ring|].
  apply big_sum_ext. intros k _.
  rewrite Nat2Z.inj_succ, Z.pow_succ_r by lia. ring.
Qed.

(** ** Clenshaw's backward recurrence *)

Section Clenshaw.

Variables t0 t1 a b : Z.

Let T := recurrence_basis t0 t1 a b.

Lemma recurrence_basis_step (k : nat) : T (S (S k)) = a * T (S k) + b * T k.
Proof. reflexivity. Qed.

Lemma clenshaw_loop_nil : clenshaw_loop a b [] = (0, 0).
Proof. reflexivity. Qed.

Lemma clenshaw_loop_cons (c : Z) (cs : list Z) :
  clenshaw_loop a b (c :: cs)
  = (c + a * fst (clenshaw_loop a b cs) + b * snd (clenshaw_loop a b cs),
     fst (clenshaw_loop a b cs)).
Proof.
  unfold clenshaw_loop. simpl rev. rewrite fold_left_app. reflexivity.
Qed.

(** The invariant of the backward recurrence: the pair computed from the
    coefficients [cs], which stand at the basis indices [m+1, m+2, ...],
    sums them up against [T_{m+1}] and [T_m]. *)
Lemma clenshaw_loop_sum (cs : list Z) :
  forall m : nat,
    big_sum (length cs) (fun i => nth i cs 0 * T (S m + i))
    = T (S m) * fst (clenshaw_loop a b cs) + b * T m * snd (clenshaw_loop a b cs).
Proof.
  induction cs as [|c cs IH]; intros m.
  - rewrite clenshaw_loop_nil. simpl. ring.
  - cbn [length]. rewrite big_sum_shift. cbn [nth].
    rewrite (big_sum_ext _ _ (fun i => nth i cs 0 * T (S (S m) + i))).
    2:{ intros k _. f_equal. f_equal. lia. }
    rewrite IH, clenshaw_loop_cons. cbn [fst snd].
    rewrite Nat.add_0_r, recurrence_basis_step. ring.
Qed.

End Clenshaw.

Lemma clenshaw_eval_cons (c0 : Z) (cs : list Z) (x : Z) (basis_0 basis_1 alpha beta : list Z) :
  clenshaw_eval (c0 :: cs) x basis_0 basis_1 alpha beta
  = Ok (poly_eval basis_0 x * c0
        + poly_eval basis_1 x * fst (clenshaw_loop (poly_eval alpha x) (poly_eval beta x) cs)
        + poly_eval beta x * poly_eval basis_0 x
          * snd (clenshaw_loop (poly_eval alpha x) (poly_eval beta x) cs)).
Proof.
  unfold clenshaw_eval. rewrite getitem_0_cons. reflexivity.
Qed.

Lemma clenshaw_eval_nil (x : Z) (basis_0 basis_1 alpha beta : list Z) :
  clenshaw_eval [] x basis_0 basis_1 alpha beta = Raise IndexError.
Proof. reflexivity. Qed.

Lemma clenshaw_eval_series (c0 : Z) (cs : list Z) (x : Z) (basis_0 basis_1 alpha beta : list Z) :
  clenshaw_eval (c0 :: cs) x basis_0 basis_1 alpha beta
  = Ok (series_sum (c0 :: cs) (descriptor_basis basis_0 basis_1 alpha beta x)).
Proof.
  rewrite clenshaw_eval_cons. f_equal.
  unfold series_sum, descriptor_basis. cbn [length].
  rewrite big_sum_shift. cbn [nth].
  rewrite (clenshaw_loop_sum _ _ _ _ cs 0).
  cbn [recurrence_basis]. ring.
Qed.

(** ** [sum], [zip] and [zip_longest] *)

Lemma fold_left_add_acc (l : list Z) (acc : Z) :
  fold_left Z.add l acc = acc + fold_left Z.add l 0.
Proof.
  revert acc. induction l as [|y l IH]; intros acc; simpl; [ring|].
  rewrite (IH (acc + y)), (IH y). ring.
Qed.

Lemma sum_cons (y : Z) (l : list Z) : sum (y :: l) = y + sum l.
Proof. unfold sum. simpl. apply fold_left_add_acc. Qed.

Lemma weighted_sum_nil_l (cs : list Z) : weighted_sum [] cs = 0.
Proof. reflexivity. Qed.

Lemma weighted_sum_nil_r (ws : list Z) : weighted_sum ws [] = 0.
Proof. destruct ws; reflexivity. Qed.

Lemma weighted_sum_cons (w c : Z) (ws cs : list Z) :
  weighted_sum (w :: ws) (c :: cs) = w * c + weighted_sum ws cs.
Proof. unfold weighted_sum, zip. cbn [combine map]. apply sum_cons. Qed.

Lemma nth_nil_Z (i : nat) : nth i (@nil Z) 0 = 0.
Proof. destruct i; reflexivity. Qed.

(** [zip] stops at the shorter list; the weights beyond it meet no item. *)
Lemma weighted_sum_big_sum (ws : list Z) :
  forall cs, weighted_sum ws cs = big_sum (length ws) (fun i => nth i ws 0 * nth i cs 0).
Proof.
  induction ws as [|w ws IH]; intros cs; [reflexivity|].
  destruct cs as [|c cs].
  - rewrite weighted_sum_nil_r.
    rewrite (big_sum_ext _ _ (fun _ => 0)), big_sum_zero; [reflexivity|].
    intros k _. rewrite nth_nil_Z. ring.
  - rewrite weighted_sum_cons, IH. cbn [length]. rewrite big_sum_shift. reflexivity.
Qed.

Lemma weighted_sum_linear {A : Type} (f g : A -> Z) (x : Z) (ws : list Z) :
  forall l : list A,
    weighted_sum ws (map (fun p => f p + x * g p) l)
    = weighted_sum ws (map f l) + x * weighted_sum ws (map g l).
Proof.
  induction ws as [|w ws IH]; intros l.
  - rewrite !weighted_sum_nil_l. ring.
  - destruct l as [|p l]; cbn [map].
    + rewrite !weighted_sum_nil_r. ring.
    + rewrite !weighted_sum_cons, IH. ring.
Qed.

Lemma weighted_sum_zero {A : Type} (f : A -> Z) (ws : list Z) :
  forall l : list A, (forall p, In p l -> f p = 0) -> weighted_sum ws (map f l) = 0.
Proof.
  induction ws as [|w ws IH]; intros l Hl; [reflexivity|].
  destruct l as [|p l]; cbn [map]; [apply weighted_sum_nil_r|].
  rewrite weighted_sum_cons, IH by (intros; apply Hl; right; assumption).
  rewrite (Hl p) by (left; reflexivity). ring.
Qed.

Lemma longest_In {A : Type} (its : list (list A)) (it : list A) :
  In it its -> (length it <= longest its)%nat.
Proof.
  induction its as [|q its IH]; intros Hin; [contradiction|].
  cbn [longest fold_right]. fold (longest its).
  destruct Hin as [->|Hin]; [lia|]. specialize (IH Hin). lia.
Qed.

Lemma longest_map_tl {A : Type} (its : list (list A)) :
  longest (map (@tl A) its) = Nat.pred (longest its).
Proof.
  induction its as [|q its IH]; [reflexivity|].
  cbn [map longest fold_right]. fold (longest its). fold (longest (map (@tl A) its)).
  rewrite IH. destruct q; cbn [tl length]; lia.
Qed.



(** The iterator protocol: [zip_longest] stops when every iterator is
    exhausted, and otherwise yields the heads and goes on with the tails. *)
Lemma zip_longest_unfold {A : Type} (fill : A) (its : list (list A)) :
  zip_longest its fill
  = if forallb (fun it => match it with [] => true | _ => false end) its then []
    else map (hd fill) its :: zip_longest (map (@tl A) its) fill.
Proof.
  unfold zip_longest. rewrite longest_map_tl.
  destruct (forallb _ its) eqn:E.
  - replace (longest its) with 0%nat; [reflexivity|].
    induction its as [|q its IH]; [reflexivity|].
    cbn [forallb] in E. apply andb_prop in E. destruct E as [Eq E].
    destruct q; [|discriminate]. cbn [longest fold_right length]. fold (longest its).
    rewrite <- IH by assumption. reflexivity.
  - destruct (longest its) eqn:L; [|reflexivity].
    exfalso. assert (F : forallb (fun it : list A => match it with [] => true | _ => false end) its = true).
    { apply forallb_forall. intros it Hin. apply longest_In in Hin.
      destruct it; [reflexivity|]. cbn [length] in Hin. lia. }
    congruence.
Qed.

Lemma zip_longest_pairs {A : Type} (fill : A) (xs : list A) :
  forall ys, zip_longest [xs; ys] fill
             = map (fun '(x, y) => [x; y]) (zip_longest2 xs ys fill).
Proof.
  induction xs as [|x xs IH]; intros ys.
  - induction ys as [|y ys IHy]; [reflexivity|].
    rewrite zip_longest_unfold. cbn [forallb andb map hd tl zip_longest2].
    cbn [zip_longest2] in IHy. rewrite IHy. reflexivity.
  - rewrite zip_longest_unfold. cbn [forallb andb map hd tl].
    destruct ys as [|y ys]; cbn [zip_longest2 map hd tl]; rewrite IH; reflexivity.
Qed.

(** ** [linear_combination] *)

Lemma linear_combination_ok (polys : list (list Z)) (weights : list Z) :
  length weights = length polys ->
  linear_combination polys weights
  = Ok (map (weighted_sum weights) (zip_longest polys 0)).
Proof.
  intros E. unfold linear_combination, len. rewrite E, Z.eqb_refl. reflexivity.
Qed.




(** Horner evaluation is linear over the rows: evaluating the combination
    is combining the evaluations. *)
Lemma poly_eval_weighted_rows (weights : list Z) (x : Z) (n : nat) :
  forall polys : list (list Z),
    (longest polys <= n)%nat ->
    poly_eval (map (weighted_sum weights) (zip_longest_rounds n polys 0)) x
    = weighted_sum weights (map (fun p => poly_eval p x) polys).
Proof.
  induction n as [|n IH]; intros polys Hn.
  - cbn [zip_longest_rounds map]. symmetry. apply weighted_sum_zero.
    intros p Hp. apply longest_In in Hp. destruct p; [reflexivity|].
    cbn [length] in Hp. lia.
  - cbn [zip_longest_rounds map]. rewrite poly_eval_cons.
    rewrite IH by (rewrite longest_map_tl; lia).
    rewrite map_map.
    rewrite (map_ext (fun p => poly_eval p x)
                     (fun p => hd 0 p + x * poly_eval (tl p) x))
      by (intros; apply poly_eval_hd_tl).
    rewrite weighted_sum_linear. reflexivity.
Qed.

Lemma poly_eval_linear_combination (polys : list (list Z)) (weights : list Z) (x : Z) :
  length weights = length polys ->
  exists p, linear_combination polys weights = Ok p
            /\ poly_eval p x
               = big_sum (length weights)
                         (fun i => nth i weights 0 * poly_eval (nth i polys []) x).
Proof.
  intros E. eexists. split; [apply linear_combination_ok; exact E|].
  unfold zip_longest. rewrite poly_eval_weighted_rows by lia.
  rewrite weighted_sum_big_sum. apply big_sum_ext. intros i _. f_equal.
  change 0 with (poly_eval [] x) at 1.
  apply (map_nth (fun p => poly_eval p x)).
Qed.

(** ** Indexing *)

Lemma getitem_nonneg {A : Type} (l : list A) (i : Z) (d : A) :
  0 <= i < len l -> getitem l i = Ok (nth (Z.to_nat i) l d).
Proof.
  intros Hi. unfold getitem, len in *.
  destruct (i <? 0) eqn:Ei; [apply Z.ltb_lt in Ei; lia|].
  replace (0 <=? i) with true by (symmetry; apply Z.leb_le; lia).
  replace (i <? Z.of_nat (length l)) with true by (symmetry; apply Z.ltb_lt; lia).
  cbn [andb]. rewrite (nth_error_nth' l d) by lia. reflexivity.
Qed.

Lemma getitem_negative {A : Type} (l : list A) (i : Z) (d : A) :
  - len l <= i < 0 -> getitem l i = Ok (nth (Z.to_nat (i + len l)) l d).
Proof.
  intros Hi. unfold getitem, len in *.
  destruct (i <? 0) eqn:Ei; [|apply Z.ltb_ge in Ei; lia].
  replace (0 <=? i + Z.of_nat (length l)) with true by (symmetry; apply Z.leb_le; lia).
  replace (i + Z.of_nat (length l) <? Z.of_nat (length l)) with true
    by (symmetry; apply Z.ltb_lt; lia).
  cbn [andb]. rewrite (nth_error_nth' l d) by lia. reflexivity.
Qed.

Lemma nth_map_seq {A : Type} (f : nat -> A) (n k : nat) (d : A) :
  (k < n)%nat -> nth k (map f (seq 0 n)) d = f k.
Proof.
  intros Hk. rewrite (nth_indep _ d (f 0%nat)) by (rewrite length_map, length_seq; exact Hk).
  rewrite map_nth, seq_nth by exact Hk. reflexivity.
Qed.

(** ** The generator *)

(** The first [n] Chebyshev polynomials. *)
Lemma cheb_polys_S (n : nat) :
  map cheb_poly (seq 0 (S n)) = map cheb_poly (seq 0 n) ++ [cheb_poly n].
Proof. rewrite seq_S, map_app. reflexivity. Qed.

(** One turn of the loop of [generate_chebyshev_polynomials], started with
    the first [j+2] polynomials, appends the next one. *)
Lemma generate_body (j : nat) :
  (p1 <- getitem (map cheb_poly (seq 0 (S (S j)))) (-1) ;;
   k_minus_2 <- getitem (map cheb_poly (seq 0 (S (S j)))) (-2) ;;
   Ok (map cheb_poly (seq 0 (S (S j))) ++ [next_polynomial ([0] ++ p1) k_minus_2]))
  = Ok (map cheb_poly (seq 0 (S (S (S j))))).
Proof.
  assert (L : len (map cheb_poly (seq 0 (S (S j)))) = Z.of_nat (S (S j)))
    by (unfold len; rewrite length_map, length_seq; reflexivity).
  rewrite (getitem_negative _ (-1) []) by lia.
  rewrite (getitem_negative _ (-2) []) by lia.
  rewrite L. cbn [bind].
  replace (Z.to_nat (-1 + Z.of_nat (S (S j)))) with (S j) by lia.
  replace (Z.to_nat (-2 + Z.of_nat (S (S j)))) with j by lia.
  rewrite !nth_map_seq by lia.
  rewrite (cheb_polys_S (S (S j))). reflexivity.
Qed.

Lemma generate_loop {A : Type} (xs : list A) :
  forall j : nat,
    for_each xs
      (fun polynomials _ =>
         p1 <- getitem polynomials (-1) ;;
         let x_k_minus_1 := [0] ++ p1 in
         k_minus_2 <- getitem polynomials (-2) ;;
         let next := next_polynomial x_k_minus_1 k_minus_2 in
         Ok (polynomials ++ [next]))
      (map cheb_poly (seq 0 (S (S j))))
    = Ok (map cheb_poly (seq 0 (length xs + S (S j)))).
Proof.
  induction xs as [|y xs IH]; intros j; [reflexivity|].
  cbn [for_each]. cbv beta zeta. rewrite (generate_body j). cbn [bind].
  rewrite IH. do 3 f_equal. cbn [length]. lia.
Qed.

Lemma range_length (a b : Z) : length (range a b) = Z.to_nat (b - a).
Proof. unfold range. rewrite length_map, length_seq. reflexivity. Qed.

(** The generator returns the first [count] Chebyshev polynomials, and never
    raises: the loop indexes a list that holds at least two polynomials. *)
Lemma generate_chebyshev_polynomials_spec (count : Z) :
  generate_chebyshev_polynomials count = Ok (map cheb_poly (seq 0 (Z.to_nat count))).
Proof.
  unfold generate_chebyshev_polynomials.
  destruct (count <? 1) eqn:E1.
  - apply Z.ltb_lt in E1. replace (Z.to_nat count) with 0%nat by lia. reflexivity.
  - apply Z.ltb_ge in E1. destruct (count <=? 2) eqn:E2.
    + apply Z.leb_le in E2.
      assert (C : count = 1 \/ count = 2) by lia.
      destruct C as [-> | ->]; reflexivity.
    + apply Z.leb_gt in E2.
      change [[1]; [0; 2]] with (map cheb_poly (seq 0 2)).
      rewrite generate_loop, range_length. do 3 f_equal. lia.
Qed.

(** ** The Chebyshev basis, as polynomials and as values *)

Lemma poly_eval_map_neg (v : list Z) (x : Z) :
  poly_eval (map (fun y => 2 * 0 - y) v) x = - poly_eval v x.
Proof.
  induction v as [|c v IH]; [reflexivity|].
  cbn [map]. rewrite !poly_eval_cons, IH. ring.
Qed.

(** The comprehension [2 * x - y] over the padded pairs computes the
    polynomial [2 u - v]. *)
Lemma poly_eval_next_polynomial (u : list Z) (x : Z) :
  forall v, poly_eval (next_polynomial u v) x = 2 * poly_eval u x - poly_eval v x.
Proof.
  unfold next_polynomial.
  induction u as [|c u IH]; intros v.
  - cbn [zip_longest2]. rewrite map_map. cbn beta iota.
    rewrite poly_eval_map_neg. change (poly_eval [] x) with 0. ring.
  - destruct v as [|d v]; cbn [zip_longest2 map]; rewrite !poly_eval_cons, IH.
    + change (poly_eval [] x) with 0. ring.
    + ring.
Qed.

Lemma descriptor_basis_recurrence (basis_0 basis_1 alpha beta : list Z) (x : Z) :
  let T := descriptor_basis basis_0 basis_1 alpha beta x in
  T 0%nat = poly_eval basis_0 x
  /\ T 1%nat = poly_eval basis_1 x
  /\ forall k, T (S (S k)) = poly_eval alpha x * T (S k) + poly_eval beta x * T k.
Proof. repeat split. Qed.

(** The values of the Chebyshev descriptor of [cheb_eval] are the values of
    the polynomials the generator builds. *)
Lemma cheb_poly_value (x : Z) (k : nat) :
  poly_eval (cheb_poly k) x = descriptor_basis [1] [0; 2] [0; 2] [-1] x k.
Proof.
  enough (H : poly_eval (cheb_poly k) x = descriptor_basis [1] [0; 2] [0; 2] [-1] x k
              /\ poly_eval (cheb_poly (S k)) x
                 = descriptor_basis [1] [0; 2] [0; 2] [-1] x (S k)) by apply H.
  induction k as [|k [IH0 IH1]].
  - split; reflexivity.
  - split; [exact IH1|].
    change (cheb_poly (S (S k)))
      with (next_polynomial (0 :: cheb_poly (S k)) (cheb_poly k)).
    rewrite poly_eval_next_polynomial, poly_eval_cons, IH0, IH1.
    destruct (descriptor_basis_recurrence [1] [0; 2] [0; 2] [-1] x) as (_ & _ & R).
    rewrite R. cbn [poly_eval rev app fold_left]. ring.
Qed.


(** ** Ints inside Python numbers

    On int arguments the functions on Python numbers never convert, never
    raise [OverflowError], and compute what the functions on [Z] compute. *)

Lemma len_map {A B : Type} (f : A -> B) (l : list A) : len (map f l) = len l.
Proof. unfold len. rewrite length_map. reflexivity. Qed.

Lemma comprehension_map_Ok {A B C : Type}
  (f : B -> result C) (g : A -> B) (h : A -> C) (l : list A) :
  (forall a, f (g a) = Ok (h a)) ->
  Num.comprehension f (map g l) = Ok (map h l).
Proof.
  intros H. induction l as [|a l IH]; [reflexivity|].
  cbn [map Num.comprehension]. rewrite H, IH. reflexivity.
Qed.

Lemma sum_loop_int (l : list Z) :
  forall a, for_each (map Num.Int l) Num.add (Num.Int a) = Ok (Num.Int (fold_left Z.add l a)).
Proof.
  induction l as [|y l IH]; intros a; [reflexivity|].
  cbn [map for_each fold_left]. cbn [Num.add Num.arith bind]. apply IH.
Qed.

Lemma sum_int (l : list Z) : Num.sum (map Num.Int l) = Ok (Num.Int (sum l)).
Proof. apply sum_loop_int. Qed.

Lemma products_int (ws : list Z) :
  forall row,
    Num.comprehension (fun '(c, x) => Num.mul c x) (zip (map Num.Int ws) (map Num.Int row))
    = Ok (map Num.Int (map (fun '(c, x) => c * x) (zip ws row))).
Proof.
  unfold zip. induction ws as [|w ws IH]; intros row; [reflexivity|].
  destruct row as [|a row]; [reflexivity|].
  cbn [map combine Num.comprehension]. rewrite IH. reflexivity.
Qed.

Lemma longest_map {A B : Type} (f : A -> B) (its : list (list A)) :
  longest (map (map f) its) = longest its.
Proof.
  induction its as [|it its IH]; [reflexivity|].
  cbn [map longest fold_right]. fold (longest its). fold (longest (map (map f) its)).
  rewrite IH, length_map. reflexivity.
Qed.

Lemma zip_longest_rounds_map {A B : Type} (f : A -> B) (fill : A) (n : nat) :
  forall its,
    zip_longest_rounds n (map (map f) its) (f fill)
    = map (map f) (zip_longest_rounds n its fill).
Proof.
  induction n as [|n IH]; intros its; [reflexivity|].
  cbn [zip_longest_rounds map]. f_equal.
  - rewrite !map_map. apply map_ext. intros [|a it]; reflexivity.
  - rewrite <- IH. f_equal. rewrite !map_map. apply map_ext. intros [|a it]; reflexivity.
Qed.

Lemma zip_longest_map {A B : Type} (f : A -> B) (fill : A) (its : list (list A)) :
  zip_longest (map (map f) its) (f fill) = map (map f) (zip_longest its fill).
Proof. unfold zip_longest. rewrite longest_map. apply zip_longest_rounds_map. Qed.

Lemma linear_combination_int (polys : list (list Z)) (weights : list Z) :
  Num.linear_combination (map (map Num.Int) polys) (map Num.Int weights)
  = (p <- linear_combination polys weights ;; Ok (map Num.Int p)).
Proof.
  unfold Num.linear_combination, linear_combination. rewrite !len_map.
  destruct (negb (len weights =? len polys)); [reflexivity|].
  cbn [bind]. rewrite (zip_longest_map Num.Int 0), map_map.
  apply comprehension_map_Ok. intros row.
  rewrite products_int. cbn [bind]. apply sum_int.
Qed.

Lemma generate_int (count : Z) :
  Num.generate_chebyshev_polynomials count
  = Ok (map (map Num.Int) (map cheb_poly (seq 0 (Z.to_nat count)))).
Proof.
  unfold Num.generate_chebyshev_polynomials.
  rewrite generate_chebyshev_polynomials_spec. reflexivity.
Qed.

Lemma poly_eval_loop_int (x : Z) (l : list Z) :
  forall a,
    for_each (map Num.Int l)
      (fun acc c => t <- Num.mul acc (Num.Int x) ;; Num.add t c) (Num.Int a)
    = Ok (Num.Int (fold_left (fun acc c => acc * x + c) l a)).
Proof.
  induction l as [|c l IH]; intros a; [reflexivity|].
  cbn [map for_each fold_left]. cbn [Num.mul Num.add Num.arith bind]. apply IH.
Qed.

Lemma poly_eval_int (p : list Z) (x : Z) :
  Num.poly_eval (map Num.Int p) (Num.Int x) = Ok (Num.Int (poly_eval p x)).
Proof.
  unfold Num.poly_eval, poly_eval. rewrite <- map_rev. apply poly_eval_loop_int.
Qed.

Lemma clenshaw_loop_int (a b : Z) (l : list Z) :
  forall s : Z * Z,
    for_each (map Num.Int l)
      (fun (st : Num.num * Num.num) c =>
         t1 <- Num.mul (Num.Int a) (fst st) ;;
         s1 <- Num.add c t1 ;;
         t2 <- Num.mul (Num.Int b) (snd st) ;;
         b_k <- Num.add s1 t2 ;;
         Ok (b_k, fst st))
      (Num.Int (fst s), Num.Int (snd s))
    = Ok (let r := fold_left (fun (st : Z * Z) c =>
                                let b_k := c + a * fst st + b * snd st in
                                (b_k, fst st)) l s in
          (Num.Int (fst r), Num.Int (snd r))).
Proof.
  induction l as [|c l IH]; intros s; [reflexivity|].
  cbn [map for_each fold_left]. cbn [Num.mul Num.add Num.arith bind fst snd].
  apply (IH (c + a * fst s + b * snd s, fst s)).
Qed.

Lemma clenshaw_eval_int (c : list Z) (x : Z) (basis_0 basis_1 alpha beta : list Z) :
  Num.clenshaw_eval (map Num.Int c) (Num.Int x)
    (map Num.Int basis_0) (map Num.Int basis_1) (map Num.Int alpha) (map Num.Int beta)
  = int_result (clenshaw_eval c x basis_0 basis_1 alpha beta).
Proof.
  unfold Num.clenshaw_eval. rewrite !poly_eval_int. cbn [bind].
  unfold slice_from. rewrite skipn_map, <- map_rev.
  rewrite (clenshaw_loop_int _ _ _ (0, 0)). cbn [bind].
  destruct c as [|c0 cs].
  - reflexivity.
  - cbn [map]. rewrite getitem_0_cons, clenshaw_eval_cons. reflexivity.
Qed.

Lemma cheb_eval_int (c : list Z) (x : Z) :
  Num.cheb_eval (map Num.Int c) (Num.Int x) = int_result (cheb_eval c x).
Proof.
  change (Num.cheb_eval (map Num.Int c) (Num.Int x))
    with (Num.clenshaw_eval (map Num.Int c) (Num.Int x)
            (map Num.Int [1]) (map Num.Int [0; 2]) (map Num.Int [0; 2]) (map Num.Int [-1])).
  rewrite clenshaw_eval_int. reflexivity.
Qed.

Lemma pow_int (x : Z) (i : nat) :
  Num.pow (Num.Int x) i = Ok (Num.Int (x ^ Z.of_nat i)).
Proof.
  induction i as [|i IH]; [reflexivity|].
  cbn [Num.pow]. rewrite IH. cbn [bind Num.mul Num.arith]. do 2 f_equal.
  rewrite Nat2Z.inj_succ, Z.pow_succ_r by lia. ring.
Qed.

Lemma recurrence_basis_int (t0 t1 a b : Z) (k : nat) :
  Num.recurrence_basis (Num.Int t0) (Num.Int t1) (Num.Int a) (Num.Int b) k
  = Ok (Num.Int (recurrence_basis t0 t1 a b k)).
Proof.
  enough (H : Num.recurrence_basis (Num.Int t0) (Num.Int t1) (Num.Int a) (Num.Int b) k
              = Ok (Num.Int (recurrence_basis t0 t1 a b k))
              /\ Num.recurrence_basis (Num.Int t0) (Num.Int t1) (Num.Int a) (Num.Int b) (S k)
                 = Ok (Num.Int (recurrence_basis t0 t1 a b (S k)))) by apply H.
  induction k as [|k [IH0 IH1]]; [split; reflexivity|].
  split; [exact IH1|].
  change (Num.recurrence_basis (Num.Int t0) (Num.Int t1) (Num.Int a) (Num.Int b) (S (S k)))
    with (tk1 <- Num.recurrence_basis (Num.Int t0) (Num.Int t1) (Num.Int a) (Num.Int b) (S k) ;;
          tk2 <- Num.recurrence_basis (Num.Int t0) (Num.Int t1) (Num.Int a) (Num.Int b) k ;;
          l <- Num.mul (Num.Int a) tk1 ;;
          r <- Num.mul (Num.Int b) tk2 ;;
          Num.add l r).
  rewrite IH0, IH1. reflexivity.
Qed.

(** The indexed terms of a sum over [zip(range(len(l)), l)], on ints. *)
Lemma indexed_terms_int (f : nat * Num.num -> result Num.num) (h : nat -> Z -> Z) (l : list Z) :
  (forall i c, f (i, Num.Int c) = Ok (Num.Int (h i c))) ->
  forall s,
    Num.comprehension f (zip (seq s (length l)) (map Num.Int l))
    = Ok (map Num.Int (map (fun '(i, c) => h i c) (zip (seq s (length l)) l))).
Proof.
  intros H. unfold zip. induction l as [|c l IH]; intros s; [reflexivity|].
  cbn [length seq map combine Num.comprehension]. rewrite H, IH. reflexivity.
Qed.

Lemma indexed_sum_big_sum (h : nat -> Z -> Z) (l : list Z) :
  forall s,
    sum (map (fun '(i, c) => h i c) (zip (seq s (length l)) l))
    = big_sum (length l) (fun i => h (s + i)%nat (nth i l 0)).
Proof.
  unfold zip. induction l as [|c l IH]; intros s; [reflexivity|].
  cbn [length seq combine map]. rewrite sum_cons, IH, big_sum_shift.
  cbn [nth]. rewrite Nat.add_0_r. f_equal.
  apply big_sum_ext. intros i _. f_equal. lia.
Qed.

Lemma naive_eval_int (P : list Z) (x : Z) :
  Num.naive_eval (map Num.Int P) (Num.Int x) = Ok (Num.Int (naive_eval P x)).
Proof.
  unfold Num.naive_eval. rewrite length_map.
  rewrite (indexed_terms_int _ (fun i c => c * x ^ Z.of_nat i))
    by (intros i c; rewrite pow_int; reflexivity).
  cbn [bind]. rewrite sum_int, indexed_sum_big_sum. reflexivity.
Qed.

Lemma series_sum_int (c : list Z) (x : Z) (basis_0 basis_1 alpha beta : list Z) :
  Num.series_sum (map Num.Int c) (Num.Int x)
    (map Num.Int basis_0) (map Num.Int basis_1) (map Num.Int alpha) (map Num.Int beta)
  = Ok (Num.Int (series_sum c (descriptor_basis basis_0 basis_1 alpha beta x))).
Proof.
  unfold Num.series_sum. rewrite !poly_eval_int. cbn [bind]. rewrite length_map.
  rewrite (indexed_terms_int _ (fun k ck => ck * descriptor_basis basis_0 basis_1 alpha beta x k))
    by (intros k ck; unfold descriptor_basis; rewrite recurrence_basis_int; reflexivity).
  cbn [bind]. rewrite sum_int, indexed_sum_big_sum. reflexivity.
Qed.

Lemma expand_then_eval_int (c : list Z) (x : Z) :
  Num.expand_then_eval (map Num.Int c) (Num.Int x)
  = int_result (fns <- generate_chebyshev_polynomials (len c) ;;
                p <- linear_combination fns c ;;
                Ok (poly_eval p x)).
Proof.
  unfold Num.expand_then_eval. rewrite len_map, generate_int.
  rewrite generate_chebyshev_polynomials_spec. cbn [bind].
  rewrite linear_combination_int.
  destruct (linear_combination _ c) as [p|e]; [|reflexivity].
  cbn [bind]. rewrite poly_eval_int. reflexivity.
Qed.

(** ** The claims *)

(** On ints: for a non-empty coefficient list, [clenshaw_eval] returns the
    sum over [k] of [c_k * T_k(x)], the [T_k] given by the recurrence. *)
Lemma clenshaw_eval_correct
  (c : list Z) (x : Z) (basis_0 basis_1 alpha beta : list Z) :
  c <> [] ->
  clenshaw_eval c x basis_0 basis_1 alpha beta
  = Ok (series_sum c (descriptor_basis basis_0 basis_1 alpha beta x)).
Proof.
  destruct c as [|c0 cs]; intros Hc; [contradiction|].
  apply clenshaw_eval_series.
Qed.

(** C1, for int arguments.  For every non-empty list [c] of ints, every int
    [x] and every recurrence descriptor made of ints, [clenshaw_eval]
    returns, without raising, exactly the sum over [k] of [c_k * T_k(x)],
    where [T_0(x)] and [T_1(x)] are the values of [basis_0] and [basis_1]
    and [T_k(x) = alpha(x) * T_{k-1}(x) + beta(x) * T_{k-2}(x)] for
    [k >= 2]. *)
Theorem clenshaw_eval_int_correct
  (c : list Z) (x : Z) (basis_0 basis_1 alpha beta : list Z) :
  c <> [] ->
  let v := series_sum c (descriptor_basis basis_0 basis_1 alpha beta x) in
  Num.clenshaw_eval (map Num.Int c) (Num.Int x)
    (map Num.Int basis_0) (map Num.Int basis_1) (map Num.Int alpha) (map Num.Int beta)
  = Ok (Num.Int v)
  /\ Num.series_sum (map Num.Int c) (Num.Int x)
       (map Num.Int basis_0) (map Num.Int basis_1) (map Num.Int alpha) (map Num.Int beta)
     = Ok (Num.Int v).
Proof.
  intros Hc v. split; [|apply series_sum_int].
  rewrite clenshaw_eval_int, clenshaw_eval_correct by exact Hc. reflexivity.
Qed.

Lemma clenshaw_eval_int_correct_witness :
  let v := series_sum [1; 2; 3] (descriptor_basis [1] [0; 2] [0; 2] [-1] 4) in
  Num.clenshaw_eval (map Num.Int [1; 2; 3]) (Num.Int 4)
    (map Num.Int [1]) (map Num.Int [0; 2]) (map Num.Int [0; 2]) (map Num.Int [-1])
  = Ok (Num.Int v)
  /\ Num.series_sum (map Num.Int [1; 2; 3]) (Num.Int 4)
       (map Num.Int [1]) (map Num.Int [0; 2]) (map Num.Int [0; 2]) (map Num.Int [-1])
     = Ok (Num.Int v).
Proof.
  apply (clenshaw_eval_int_correct [1; 2; 3] 4 [1] [0; 2] [0; 2] [-1]).
  discriminate.
Defined.

(** C1, as stated for every scalar, fails on floats:
    [clenshaw_eval([1, 1, 2**53], 1.0, [1], [0, 1], [0, 1], [0])] returns
    [2**53], while every [T_k(1.0)] is 1 and the coefficients add up to
    [2**53 + 2], which the sum taken term by term returns. *)
Lemma clenshaw_eval_float_rounds :
  Num.clenshaw_eval [Num.Int 1; Num.Int 1; Num.Int (2 ^ 53)] (Num.Float 1)
    [Num.Int 1] [Num.Int 0; Num.Int 1] [Num.Int 0; Num.Int 1] [Num.Int 0]
  = Ok (Num.Float 9007199254740992)
  /\ Num.series_sum [Num.Int 1; Num.Int 1; Num.Int (2 ^ 53)] (Num.Float 1)
       [Num.Int 1] [Num.Int 0; Num.Int 1] [Num.Int 0; Num.Int 1] [Num.Int 0]
     = Ok (Num.Float 9007199254740994)
  /\ PrimFloat.eqb 9007199254740992 9007199254740994 = false.
Proof. repeat split; vm_compute; reflexivity. Qed.

(** On ints: for a non-empty coefficient list the generator and
    [linear_combination] return without raising, and [cheb_eval(c, x)] is
    [poly_eval(linear_combination(generate_chebyshev_polynomials(len(c)), c), x)]. *)
Lemma cheb_eval_agrees_with_expansion (c : list Z) (x : Z) :
  c <> [] ->
  exists fns p,
    generate_chebyshev_polynomials (len c) = Ok fns
    /\ linear_combination fns c = Ok p
    /\ cheb_eval c x = Ok (poly_eval p x).
Proof.
  intros Hc.
  pose (fns := map cheb_poly (seq 0 (length c))).
  assert (L : length c = length fns)
    by (unfold fns; rewrite length_map, length_seq; reflexivity).
  destruct (poly_eval_linear_combination fns c x L) as (p & Hp & Hv).
  exists fns, p. split; [|split].
  - rewrite generate_chebyshev_polynomials_spec. unfold len. rewrite Nat2Z.id. reflexivity.
  - exact Hp.
  - change (cheb_eval c x) with (clenshaw_eval c x [1] [0; 2] [0; 2] [-1]).
    destruct c as [|c0 cs]; [contradiction|].
    rewrite clenshaw_eval_series. f_equal.
    rewrite Hv. unfold series_sum. apply big_sum_ext. intros i Hi. f_equal.
    unfold fns. rewrite nth_map_seq by exact Hi. symmetry. apply cheb_poly_value.
Qed.

(** C2, for int arguments.  For every non-empty list [c] of ints and every
    int [x], neither path raises and [cheb_eval(c, x)] equals
    [poly_eval(linear_combination(generate_chebyshev_polynomials(len(c)), c), x)]
    exactly. *)
Theorem cheb_eval_int_agrees_with_expansion (c : list Z) (x : Z) :
  c <> [] ->
  exists v,
    Num.cheb_eval (map Num.Int c) (Num.Int x) = Ok (Num.Int v)
    /\ Num.expand_then_eval (map Num.Int c) (Num.Int x) = Ok (Num.Int v).
Proof.
  intros Hc.
  destruct (cheb_eval_agrees_with_expansion c x Hc) as (fns & p & Hg & Hl & Hv).
  exists (poly_eval p x). split.
  - rewrite cheb_eval_int, Hv. reflexivity.
  - rewrite expand_then_eval_int, Hg. cbn [bind]. rewrite Hl. reflexivity.
Qed.

Lemma cheb_eval_int_agrees_with_expansion_witness :
  exists v,
    Num.cheb_eval (map Num.Int [1; 2; 3]) (Num.Int 4) = Ok (Num.Int v)
    /\ Num.expand_then_eval (map Num.Int [1; 2; 3]) (Num.Int 4) = Ok (Num.Int v).
Proof.
  apply (cheb_eval_int_agrees_with_expansion [1; 2; 3] 4).
  discriminate.
Defined.

(** C2, as stated, fails on an integer-valued float:
    [cheb_eval([1, 1, 1], 67108863.0)] returns [18014398106828804.0] and
    the expand-then-evaluate path returns [18014398106828802.0]. *)
Lemma cheb_eval_float_disagrees :
  Num.cheb_eval [Num.Int 1; Num.Int 1; Num.Int 1] (Num.Float 67108863)
  = Ok (Num.Float 18014398106828804)
  /\ Num.expand_then_eval [Num.Int 1; Num.Int 1; Num.Int 1] (Num.Float 67108863)
     = Ok (Num.Float 18014398106828802)
  /\ PrimFloat.eqb 18014398106828804 18014398106828802 = false.
Proof. repeat split; vm_compute; reflexivity. Qed.

(** Boundary runs: the generator at counts 0 and 1, and [clenshaw_eval] on
    a single coefficient and on none. *)
Lemma boundary_cases :
  generate_chebyshev_polynomials 0 = Ok []
  /\ generate_chebyshev_polynomials 1 = Ok [[1]]
  /\ (forall c0 x basis_0 basis_1 alpha beta,
         clenshaw_eval [c0] x basis_0 basis_1 alpha beta = Ok (poly_eval basis_0 x * c0))
  /\ (forall x basis_0 basis_1 alpha beta,
         clenshaw_eval [] x basis_0 basis_1 alpha beta = Raise IndexError).
Proof.
  split; [reflexivity|]. split; [reflexivity|]. split.
  - intros. rewrite clenshaw_eval_cons, clenshaw_loop_nil. cbn [fst snd]. f_equal. ring.
  - intros. apply clenshaw_eval_nil.
Qed.

(** C3.  The claim requires [clenshaw_eval] to complete without an indexing
    error on the empty coefficient list; the code does not: the call
    [clenshaw_eval([], 3, [1], [0, 2], [0, 2], [-1])] raises [IndexError]
    at its unguarded [coefficients[0]], where the docstring's
    [f(value) = sum_k c_k T_k(value)] is the empty sum 0, the value the
    expand-then-evaluate path returns. *)
Lemma clenshaw_eval_empty_raises :
  clenshaw_eval [] 3 [1] [0; 2] [0; 2] [-1] = Raise IndexError
  /\ ~ (forall c x basis_0 basis_1 alpha beta,
           (length c <= 1)%nat ->
           exists v, clenshaw_eval c x basis_0 basis_1 alpha beta = Ok v).
Proof.
  split; [reflexivity|].
  intros H. destruct (H [] 3 [1] [0; 2] [0; 2] [-1]) as [v Hv]; [cbn; lia|].
  discriminate Hv.
Qed.

(** C4. For every count [N >= 0], [generate_chebyshev_polynomials(N)]
    returns a list of exactly [N] polynomials, and for every [k < N] its
    item [k] is item [k] of [generate_chebyshev_polynomials(N+1)]. *)
Theorem generate_prefix_stable (N : Z) :
  0 <= N ->
  exists ps ps',
    generate_chebyshev_polynomials N = Ok ps
    /\ generate_chebyshev_polynomials (N + 1) = Ok ps'
    /\ len ps = N
    /\ forall k, 0 <= k < N ->
         exists p, getitem ps k = Ok p /\ getitem ps' k = Ok p.
Proof.
  intros HN.
  exists (map cheb_poly (seq 0 (Z.to_nat N))), (map cheb_poly (seq 0 (Z.to_nat (N + 1)))).
  rewrite !generate_chebyshev_polynomials_spec.
  assert (L : forall n, len (map cheb_poly (seq 0 n)) = Z.of_nat n)
    by (intros n; unfold len; rewrite length_map, length_seq; reflexivity).
  split; [reflexivity|]. split; [reflexivity|]. split; [rewrite L; lia|].
  intros k Hk. exists (cheb_poly (Z.to_nat k)). split.
  - rewrite (getitem_nonneg _ k []) by (rewrite L; lia).
    rewrite nth_map_seq by lia. reflexivity.
  - rewrite (getitem_nonneg _ k []) by (rewrite L; lia).
    rewrite nth_map_seq by lia. reflexivity.
Qed.

Lemma generate_prefix_stable_witness :
  exists ps ps',
    generate_chebyshev_polynomials 3 = Ok ps
    /\ generate_chebyshev_polynomials (3 + 1) = Ok ps'
    /\ len ps = 3
    /\ forall k, 0 <= k < 3 ->
         exists p, getitem ps k = Ok p /\ getitem ps' k = Ok p.
Proof.
  apply (generate_prefix_stable 3). lia.
Defined.

(** C5. [generate_chebyshev_polynomials(5)] returns exactly
    [[[1], [0,2], [-1,0,4], [0,-4,0,8], [1,0,-12,0,16]]].  In general the
    generator returns [T_0 .. T_{count-1}] where the seeds are [T_0 = [1]]
    and [T_1 = [0, 2]] and each later [T_k] is [2 * x - y] over the
    zero-padded pairs of [T_{k-1}] shifted up by one degree and [T_{k-2}]. *)
Theorem generate_five :
  generate_chebyshev_polynomials 5
  = Ok [[1]; [0; 2]; [-1; 0; 4]; [0; -4; 0; 8]; [1; 0; -12; 0; 16]]
  /\ (forall count,
         generate_chebyshev_polynomials count
         = Ok (map cheb_poly (seq 0 (Z.to_nat count))))
  /\ cheb_poly 0 = [1]
  /\ cheb_poly 1 = [0; 2]
  /\ (forall k,
         cheb_poly (S (S k))
         = map (fun '(x, y) => 2 * x - y)
               (zip_longest2 ([0] ++ cheb_poly (S k)) (cheb_poly k) 0)).
Proof.
  split; [reflexivity|]. split; [exact generate_chebyshev_polynomials_spec|].
  repeat split.
Qed.







(** On ints: Horner's loop returns the naive sum. *)
Lemma poly_eval_is_naive_sum (P : list Z) (x : Z) :
  P <> [] ->
  poly_eval P x = naive_eval P x /\ poly_eval [1; 2; 3; 4] 3 = 142.
Proof.
  intros _. split; [apply poly_eval_naive | reflexivity].
Qed.

(** C8, for int arguments.  For every non-empty list [P] of ints and every
    int [x], [poly_eval(P, x)] equals the direct naive sum of
    [P[i] * x**i] over all indices [i]; in particular
    [poly_eval([1,2,3,4], 3) = 142]. *)
Theorem poly_eval_int_is_naive_sum (P : list Z) (x : Z) :
  P <> [] ->
  (exists v,
      Num.poly_eval (map Num.Int P) (Num.Int x) = Ok (Num.Int v)
      /\ Num.naive_eval (map Num.Int P) (Num.Int x) = Ok (Num.Int v))
  /\ Num.poly_eval [Num.Int 1; Num.Int 2; Num.Int 3; Num.Int 4] (Num.Int 3)
     = Ok (Num.Int 142).
Proof.
  intros _. split; [|reflexivity].
  exists (poly_eval P x). split; [apply poly_eval_int|].
  rewrite naive_eval_int, poly_eval_naive. reflexivity.
Qed.

Lemma poly_eval_int_is_naive_sum_witness :
  (exists v,
      Num.poly_eval (map Num.Int [1; 2; 3; 4]) (Num.Int 3) = Ok (Num.Int v)
      /\ Num.naive_eval (map Num.Int [1; 2; 3; 4]) (Num.Int 3) = Ok (Num.Int v))
  /\ Num.poly_eval [Num.Int 1; Num.Int 2; Num.Int 3; Num.Int 4] (Num.Int 3)
     = Ok (Num.Int 142).
Proof.
  apply (poly_eval_int_is_naive_sum [1; 2; 3; 4] 3). discriminate.
Defined.

(** C8, as stated for every scalar, fails on floats:
    [poly_eval([1, 1, 2**53], 1.0)] returns [2**53], while the naive sum of
    [P[i] * x**i] is [2**53 + 2]. *)
Lemma poly_eval_float_rounds :
  Num.poly_eval [Num.Int 1; Num.Int 1; Num.Int (2 ^ 53)] (Num.Float 1)
  = Ok (Num.Float 9007199254740992)
  /\ Num.naive_eval [Num.Int 1; Num.Int 1; Num.Int (2 ^ 53)] (Num.Float 1)
     = Ok (Num.Float 9007199254740994)
  /\ PrimFloat.eqb 9007199254740992 9007199254740994 = false.
Proof. repeat split; vm_compute; reflexivity. Qed.


(** C10. For every integer [x], [poly_eval([], x)] returns 0: the
    accumulator starts at 0 and the loop body never runs; nothing in
    [poly_eval] can raise. *)
Theorem poly_eval_empty (x : Z) : poly_eval [] x = 0.
Proof. unfold poly_eval. cbn [rev fold_left]. reflexivity. Qed.

(** ** Further properties of the generator *)

Example test_generate_chebyshev_polynomials :
  Forall (fun count =>
            generate_chebyshev_polynomials count
            = Ok (slice_to [[1]; [0; 2]; [-1; 0; 4]; [0; -4; 0; 8]; [1; 0; -12; 0; 16]] count))
         (range 0 6).
Proof. repeat constructor. Qed.

Lemma zip_longest2_length {A : Type} (fill : A) (xs : list A) :
  forall ys, length (zip_longest2 xs ys fill) = Nat.max (length xs) (length ys).
Proof.
  induction xs as [|x xs IH]; intros ys.
  - cbn [zip_longest2 length]. rewrite length_map. reflexivity.
  - destruct ys as [|y ys]; cbn [zip_longest2 length]; rewrite IH; cbn [length]; lia.
Qed.

Lemma next_polynomial_length (u v : list Z) :
  length (next_polynomial u v) = Nat.max (length u) (length v).
Proof. unfold next_polynomial. rewrite length_map. apply zip_longest2_length. Qed.

(** Coefficient [j] of the comprehension, a missing item counting as 0. *)
Lemma next_polynomial_nth (u : list Z) :
  forall v j, nth j (next_polynomial u v) 0 = 2 * nth j u 0 - nth j v 0.
Proof.
  unfold next_polynomial.
  induction u as [|c u IH]; intros v j.
  - cbn [zip_longest2]. rewrite map_map. cbn beta iota. rewrite nth_nil_Z.
    revert j. induction v as [|d v IHv]; intros j.
    + cbn [map]. rewrite !nth_nil_Z. reflexivity.
    + destruct j as [|j]; cbn [map nth]; [reflexivity | apply IHv].
  - destruct v as [|d v]; cbn [zip_longest2 map].
    + destruct j as [|j]; cbn [nth]; [reflexivity|].
      rewrite IH, nth_nil_Z. reflexivity.
    + destruct j as [|j]; cbn [nth]; [reflexivity | apply IH].
Qed.

Lemma cheb_poly_step (k : nat) :
  cheb_poly (S (S k)) = next_polynomial (0 :: cheb_poly (S k)) (cheb_poly k).
Proof. reflexivity. Qed.

(** [T_k] has [k+1] coefficients. *)
Lemma cheb_poly_length (k : nat) : length (cheb_poly k) = S k.
Proof.
  enough (H : length (cheb_poly k) = S k /\ length (cheb_poly (S k)) = S (S k)) by apply H.
  induction k as [|k [IH0 IH1]]; [split; reflexivity|].
  split; [exact IH1|].
  rewrite cheb_poly_step, next_polynomial_length. cbn [length]. rewrite IH0, IH1. lia.
Qed.

(** The leading coefficient of [T_k] is [2^k]. *)
Lemma cheb_poly_leading (k : nat) : nth k (cheb_poly k) 0 = 2 ^ Z.of_nat k.
Proof.
  enough (H : nth k (cheb_poly k) 0 = 2 ^ Z.of_nat k
              /\ nth (S k) (cheb_poly (S k)) 0 = 2 ^ Z.of_nat (S k)) by apply H.
  induction k as [|k [IH0 IH1]]; [split; reflexivity|].
  split; [exact IH1|].
  rewrite cheb_poly_step, next_polynomial_nth. cbn [nth]. rewrite IH1.
  rewrite (nth_overflow (cheb_poly k)) by (rewrite cheb_poly_length; lia).
  rewrite (Nat2Z.inj_succ (S k)), Z.pow_succ_r by lia. ring.
Qed.

(** [T_k] is even or odd with [k]: the coefficients whose index has the
    other parity are 0. *)
Lemma cheb_poly_parity (k : nat) :
  forall j, Nat.odd (j + k) = true -> nth j (cheb_poly k) 0 = 0.
Proof.
  enough (H : (forall j, Nat.odd (j + k) = true -> nth j (cheb_poly k) 0 = 0)
              /\ (forall j, Nat.odd (j + S k) = true -> nth j (cheb_poly (S k)) 0 = 0))
    by apply H.
  induction k as [|k [IH0 IH1]].
  - split; intros j Hj.
    + destruct j as [|[|j]]; [discriminate | reflexivity | reflexivity].
    + destruct j as [|[|[|j]]]; try reflexivity. discriminate.
  - split; [exact IH1|]. intros j Hj.
    rewrite cheb_poly_step, next_polynomial_nth.
    rewrite (IH0 j) by (rewrite !Nat.add_succ_r in Hj; exact Hj).
    destruct j as [|j]; cbn [nth]; [reflexivity|].
    rewrite (IH1 j); [reflexivity|].
    rewrite !Nat.add_succ_r in Hj. cbn [Nat.add] in Hj.
    rewrite Nat.add_succ_r. exact Hj.
Qed.

(** The docstring's recurrence, on values. *)
Lemma cheb_poly_eval_step (k : nat) (x : Z) :
  poly_eval (cheb_poly (S (S k))) x
  = 2 * x * poly_eval (cheb_poly (S k)) x - poly_eval (cheb_poly k) x.
Proof.
  rewrite cheb_poly_step, poly_eval_next_polynomial, poly_eval_cons. ring.
Qed.

Lemma cheb_poly_eval_one (k : nat) : poly_eval (cheb_poly k) 1 = Z.of_nat k + 1.
Proof.
  enough (H : poly_eval (cheb_poly k) 1 = Z.of_nat k + 1
              /\ poly_eval (cheb_poly (S k)) 1 = Z.of_nat (S k) + 1) by apply H.
  induction k as [|k [IH0 IH1]]; [split; reflexivity|].
  split; [exact IH1|].
  rewrite cheb_poly_eval_step, IH0, IH1. lia.
Qed.

(** Item [k] of the generator's list, by Python indexing. *)
Lemma generate_item (count k : Z) :
  0 <= k < count ->
  exists ps,
    generate_chebyshev_polynomials count = Ok ps
    /\ getitem ps k = Ok (cheb_poly (Z.to_nat k)).
Proof.
  intros Hk. eexists. split; [apply generate_chebyshev_polynomials_spec|].
  rewrite (getitem_nonneg _ k [])
    by (unfold len; rewrite length_map, length_seq; lia).
  rewrite nth_map_seq by lia. reflexivity.
Qed.

Lemma firstn_seq_le (n : nat) :
  forall s m, (n <= m)%nat -> firstn n (seq s m) = seq s n.
Proof.
  induction n as [|n IH]; intros s m Hm; [reflexivity|].
  destruct m as [|m]; [lia|]. cbn [seq firstn]. rewrite IH by lia. reflexivity.
Qed.

Lemma odd_to_nat (z : Z) : 0 <= z -> Z.odd z = true -> Nat.odd (Z.to_nat z) = true.
Proof.
  intros Hz Ho. apply Z.odd_spec in Ho. destruct Ho as [m Hm].
  apply Nat.odd_spec. exists (Z.to_nat m). lia.
Qed.

Lemma cheb_polys_len (n : nat) : len (map cheb_poly (seq 0 n)) = Z.of_nat n.
Proof. unfold len. rewrite length_map, length_seq. reflexivity. Qed.

(** X1. For every integer [count], negative ones included, the generator
    returns without raising, and its list holds [max(0, count)]
    polynomials. *)
Theorem generate_never_raises (count : Z) :
  exists ps,
    generate_chebyshev_polynomials count = Ok ps /\ len ps = Z.max 0 count.
Proof.
  eexists. split; [apply generate_chebyshev_polynomials_spec|].
  rewrite cheb_polys_len. lia.
Qed.

(** X2. For [0 <= N <= M], [generate_chebyshev_polynomials(N)] is the slice
    [generate_chebyshev_polynomials(M)[:N]]. *)
Theorem generate_is_slice_of_longer (N M : Z) :
  0 <= N <= M ->
  exists psN psM,
    generate_chebyshev_polynomials N = Ok psN
    /\ generate_chebyshev_polynomials M = Ok psM
    /\ psN = slice_to psM N.
Proof.
  intros H. do 2 eexists.
  split; [apply generate_chebyshev_polynomials_spec|].
  split; [apply generate_chebyshev_polynomials_spec|].
  unfold slice_to. replace (N <? 0) with false by (symmetry; apply Z.ltb_ge; lia).
  rewrite firstn_map, firstn_seq_le by lia. reflexivity.
Qed.

Lemma generate_is_slice_of_longer_witness :
  exists psN psM,
    generate_chebyshev_polynomials 2 = Ok psN
    /\ generate_chebyshev_polynomials 5 = Ok psM
    /\ psN = slice_to psM 2.
Proof. apply (generate_is_slice_of_longer 2 5). lia. Defined.

(** X3. For [0 <= k < count], item [k] of the generator's list has exactly
    [k+1] coefficients and its last one, the leading coefficient, is [2^k]:
    the polynomial has degree [k] and no trailing zero. *)
Theorem generate_degree (count k : Z) :
  0 <= k < count ->
  exists ps p,
    generate_chebyshev_polynomials count = Ok ps
    /\ getitem ps k = Ok p
    /\ len p = k + 1
    /\ getitem p (-1) = Ok (2 ^ k).
Proof.
  intros Hk. destruct (generate_item count k Hk) as (ps & Hps & Hp).
  exists ps, (cheb_poly (Z.to_nat k)).
  assert (L : len (cheb_poly (Z.to_nat k)) = k + 1)
    by (unfold len; rewrite cheb_poly_length; lia).
  repeat split; [exact Hps | exact Hp | exact L |].
  rewrite (getitem_negative _ (-1) 0) by lia. rewrite L.
  replace (Z.to_nat (-1 + (k + 1))) with (Z.to_nat k) by lia.
  rewrite cheb_poly_leading, Z2Nat.id by lia. reflexivity.
Qed.

Lemma generate_degree_witness :
  exists ps p,
    generate_chebyshev_polynomials 5 = Ok ps
    /\ getitem ps 4 = Ok p
    /\ len p = 4 + 1
    /\ getitem p (-1) = Ok (2 ^ 4).
Proof. apply (generate_degree 5 4). lia. Defined.

(** X4. For [0 <= k < count], the coefficient at index [j] of item [k] of
    the generator's list is 0 whenever [j + k] is odd: the polynomials are
    alternately even and odd. *)
Theorem generate_parity (count k j : Z) :
  0 <= k < count -> 0 <= j <= k -> Z.odd (j + k) = true ->
  exists ps p,
    generate_chebyshev_polynomials count = Ok ps
    /\ getitem ps k = Ok p
    /\ getitem p j = Ok 0.
Proof.
  intros Hk Hj Ho. destruct (generate_item count k Hk) as (ps & Hps & Hp).
  exists ps, (cheb_poly (Z.to_nat k)). repeat split; [exact Hps | exact Hp |].
  rewrite (getitem_nonneg _ j 0) by (unfold len; rewrite cheb_poly_length; lia).
  rewrite cheb_poly_parity; [reflexivity|].
  rewrite <- Z2Nat.inj_add by lia. apply odd_to_nat; [lia | exact Ho].
Qed.

Lemma generate_parity_witness :
  exists ps p,
    generate_chebyshev_polynomials 5 = Ok ps
    /\ getitem ps 4 = Ok p
    /\ getitem p 3 = Ok 0.
Proof. apply (generate_parity 5 4 3); [lia | lia | reflexivity]. Defined.

(** X5. For [2 <= k < count], the items [k], [k-1] and [k-2] of the
    generator's list satisfy the docstring's recurrence as functions:
    [T_k(x) = 2x T_{k-1}(x) - T_{k-2}(x)] at every integer [x]. *)
Theorem generate_recurrence_values (count k : Z) :
  2 <= k < count ->
  exists ps p p1 p2,
    generate_chebyshev_polynomials count = Ok ps
    /\ getitem ps k = Ok p
    /\ getitem ps (k - 1) = Ok p1
    /\ getitem ps (k - 2) = Ok p2
    /\ forall x, poly_eval p x = 2 * x * poly_eval p1 x - poly_eval p2 x.
Proof.
  intros Hk.
  exists (map cheb_poly (seq 0 (Z.to_nat count))),
    (cheb_poly (S (S (Z.to_nat (k - 2))))), (cheb_poly (S (Z.to_nat (k - 2)))),
    (cheb_poly (Z.to_nat (k - 2))).
  split; [apply generate_chebyshev_polynomials_spec|].
  repeat split.
  - rewrite (getitem_nonneg _ k []) by (rewrite cheb_polys_len; lia).
    rewrite nth_map_seq by lia. f_equal. f_equal. lia.
  - rewrite (getitem_nonneg _ (k - 1) []) by (rewrite cheb_polys_len; lia).
    rewrite nth_map_seq by lia. f_equal. f_equal. lia.
  - rewrite (getitem_nonneg _ (k - 2) []) by (rewrite cheb_polys_len; lia).
    rewrite nth_map_seq by lia. reflexivity.
  - intros x. apply cheb_poly_eval_step.
Qed.

Lemma generate_recurrence_values_witness :
  exists ps p p1 p2,
    generate_chebyshev_polynomials 5 = Ok ps
    /\ getitem ps 4 = Ok p
    /\ getitem ps (4 - 1) = Ok p1
    /\ getitem ps (4 - 2) = Ok p2
    /\ forall x, poly_eval p x = 2 * x * poly_eval p1 x - poly_eval p2 x.
Proof. apply (generate_recurrence_values 5 4). lia. Defined.

(** X6. For [0 <= k < count], item [k] of the generator's list takes the
    value [k + 1] at [x = 1]: its coefficients add up to [k + 1]. *)
Theorem generate_value_at_one (count k : Z) :
  0 <= k < count ->
  exists ps p,
    generate_chebyshev_polynomials count = Ok ps
    /\ getitem ps k = Ok p
    /\ poly_eval p 1 = k + 1.
Proof.
  intros Hk. destruct (generate_item count k Hk) as (ps & Hps & Hp).
  exists ps, (cheb_poly (Z.to_nat k)). repeat split; [exact Hps | exact Hp |].
  rewrite cheb_poly_eval_one. lia.
Qed.

Lemma generate_value_at_one_witness :
  exists ps p,
    generate_chebyshev_polynomials 5 = Ok ps
    /\ getitem ps 4 = Ok p
    /\ poly_eval p 1 = 4 + 1.
Proof. apply (generate_value_at_one 5 4). lia. Defined.

(** ** Further properties of Horner evaluation and of linear combinations *)

Lemma big_sum_plus (n : nat) (f g : nat -> Z) :
  big_sum n (fun k => f k + g k) = big_sum n f + big_sum n g.
Proof. induction n as [|n IH]; simpl; [ring|]. rewrite IH. ring. Qed.

(** On ints: the coefficients [q] placed after [p] contribute their own
    value shifted by [x ** len(p)]. *)
Lemma poly_eval_concat (p q : list Z) (x : Z) :
  poly_eval (p ++ q) x = poly_eval p x + x ^ len p * poly_eval q x.
Proof.
  unfold len. induction p as [|c p IH].
  - cbn [app length]. change (poly_eval [] x) with 0. cbn [Z.of_nat].
    rewrite Z.pow_0_r. ring.
  - cbn [app length]. rewrite !poly_eval_cons, IH.
    rewrite Nat2Z.inj_succ, Z.pow_succ_r by lia. ring.
Qed.

(** X7. Evaluating a concatenation of int lists at an int [x]: with [vp]
    and [vq] the values [poly_eval] returns on [p] and on [q], it returns
    [vp + x ** len(p) * vq] on [p + q]. *)
Theorem poly_eval_int_concat (p q : list Z) (x : Z) :
  exists vp vq,
    Num.poly_eval (map Num.Int p) (Num.Int x) = Ok (Num.Int vp)
    /\ Num.poly_eval (map Num.Int q) (Num.Int x) = Ok (Num.Int vq)
    /\ Num.poly_eval (map Num.Int p ++ map Num.Int q) (Num.Int x)
       = Ok (Num.Int (vp + x ^ len p * vq)).
Proof.
  exists (poly_eval p x), (poly_eval q x).
  rewrite <- map_app, !poly_eval_int, poly_eval_concat. repeat split.
Qed.



(** On ints: evaluation commutes with linear combination. *)
Lemma poly_eval_of_linear_combination
  (polys : list (list Z)) (weights : list Z) (x : Z) :
  len weights = len polys ->
  exists p,
    linear_combination polys weights = Ok p
    /\ poly_eval p x
       = big_sum (length polys) (fun i => nth i weights 0 * poly_eval (nth i polys []) x).
Proof.
  unfold len. intros E. apply Nat2Z.inj in E.
  destruct (poly_eval_linear_combination polys weights x E) as (p & Hp & Hv).
  exists p. split; [exact Hp|]. rewrite Hv, E. reflexivity.
Qed.

(** X9. Evaluation commutes with linear combination on ints: for int
    polynomials and equally many int weights, the value at an int [x] of
    [linear_combination(polys, weights)] is the sum over [i] of
    [weights[i]] times the value of [polys[i]] at [x]. *)
Theorem poly_eval_int_of_linear_combination
  (polys : list (list Z)) (weights : list Z) (x : Z) :
  len weights = len polys ->
  exists p,
    Num.linear_combination (map (map Num.Int) polys) (map Num.Int weights) = Ok p
    /\ Num.poly_eval p (Num.Int x)
       = Ok (Num.Int (big_sum (length polys)
                        (fun i => nth i weights 0 * poly_eval (nth i polys []) x)))
    /\ forall i, Num.poly_eval (map Num.Int (nth i polys [])) (Num.Int x)
                 = Ok (Num.Int (poly_eval (nth i polys []) x)).
Proof.
  intros E. destruct (poly_eval_of_linear_combination polys weights x E) as (p & Hp & Hv).
  exists (map Num.Int p). split; [|split].
  - rewrite linear_combination_int, Hp. reflexivity.
  - rewrite poly_eval_int, Hv. reflexivity.
  - intros i. apply poly_eval_int.
Qed.

Lemma poly_eval_int_of_linear_combination_witness :
  exists p,
    Num.linear_combination (map (map Num.Int) [[1]; [0; 2]; [-1; 0; 4]])
      (map Num.Int [1; 2; 3]) = Ok p
    /\ Num.poly_eval p (Num.Int 4)
       = Ok (Num.Int (big_sum (length [[1]; [0; 2]; [-1; 0; 4]])
                        (fun i => nth i [1; 2; 3] 0
                                  * poly_eval (nth i [[1]; [0; 2]; [-1; 0; 4]] []) 4)))
    /\ forall i, Num.poly_eval (map Num.Int (nth i [[1]; [0; 2]; [-1; 0; 4]] [])) (Num.Int 4)
                 = Ok (Num.Int (poly_eval (nth i [[1]; [0; 2]; [-1; 0; 4]] []) 4)).
Proof.
  apply (poly_eval_int_of_linear_combination [[1]; [0; 2]; [-1; 0; 4]] [1; 2; 3] 4).
  reflexivity.
Defined.

Lemma zip_longest_singleton {A : Type} (fill : A) (p : list A) :
  zip_longest [p] fill = map (fun a => [a]) p.
Proof.
  induction p as [|a p IH]; [reflexivity|].
  rewrite zip_longest_unfold. cbn [forallb andb map hd tl]. rewrite IH. reflexivity.
Qed.

(** X10. The combination of a single polynomial scales it: with one
    polynomial [p] and one weight [w] the result is [w * a] for every
    coefficient [a] of [p], in order. *)
Theorem linear_combination_singleton (p : list Z) (w : Z) :
  linear_combination [p] [w] = Ok (map (fun a => w * a) p).
Proof.
  rewrite linear_combination_ok by reflexivity. f_equal.
  rewrite zip_longest_singleton, map_map. apply map_ext. intros a.
  rewrite weighted_sum_cons, weighted_sum_nil_l. ring.
Qed.

(** ** Further properties of the Clenshaw evaluators *)



Lemma nth_map_zip_linear (s t : Z) (c : list Z) :
  forall d i,
    length c = length d ->
    nth i (map (fun '(a, b) => s * a + t * b) (zip c d)) 0
    = s * nth i c 0 + t * nth i d 0.
Proof.
  unfold zip. induction c as [|a c IH]; intros d i E.
  - destruct d; [|discriminate]. cbn [combine map]. rewrite nth_nil_Z. ring.
  - destruct d as [|b d]; [discriminate|]. cbn [combine map].
    destruct i as [|i]; cbn [nth]; [reflexivity|].
    apply IH. cbn [length] in E. lia.
Qed.

Lemma series_sum_linear (s t : Z) (c d : list Z) (T : nat -> Z) :
  length c = length d ->
  series_sum (map (fun '(a, b) => s * a + t * b) (zip c d)) T
  = s * series_sum c T + t * series_sum d T.
Proof.
  intros E. unfold series_sum.
  replace (length (map (fun '(a, b) => s * a + t * b) (zip c d))) with (length c)
    by (unfold zip; rewrite length_map, length_combine; lia).
  rewrite <- E, <- !big_sum_scale, <- big_sum_plus.
  apply big_sum_ext. intros i _. rewrite nth_map_zip_linear by exact E. ring.
Qed.

(** On ints: [clenshaw_eval] is linear in its coefficients. *)
Lemma clenshaw_eval_linear
  (c d : list Z) (s t x : Z) (basis_0 basis_1 alpha beta : list Z) :
  c <> [] -> len c = len d ->
  exists vc vd,
    clenshaw_eval c x basis_0 basis_1 alpha beta = Ok vc
    /\ clenshaw_eval d x basis_0 basis_1 alpha beta = Ok vd
    /\ clenshaw_eval (map (fun '(a, b) => s * a + t * b) (zip c d))
                     x basis_0 basis_1 alpha beta
       = Ok (s * vc + t * vd).
Proof.
  unfold len. intros Hc E. apply Nat2Z.inj in E.
  destruct c as [|c0 cs]; [contradiction|].
  destruct d as [|d0 ds]; [discriminate|].
  do 2 eexists. split; [apply clenshaw_eval_series|].
  split; [apply clenshaw_eval_series|].
  rewrite <- series_sum_linear by exact E.
  unfold zip. cbn [combine map]. apply clenshaw_eval_series.
Qed.

Lemma combination_int (s t : Z) (c : list Z) :
  forall d,
    Num.comprehension
      (fun '(a, b) =>
         sa <- Num.mul (Num.Int s) a ;; tb <- Num.mul (Num.Int t) b ;; Num.add sa tb)
      (zip (map Num.Int c) (map Num.Int d))
    = Ok (map Num.Int (map (fun '(a, b) => s * a + t * b) (zip c d))).
Proof.
  unfold zip. induction c as [|a c IH]; intros d; [reflexivity|].
  destruct d as [|b d]; [reflexivity|].
  cbn [map combine Num.comprehension]. rewrite IH. reflexivity.
Qed.

(** X12. On ints [clenshaw_eval] is linear in its coefficients: for
    non-empty int lists [c] and [d] of equal length, ints [s], [t], [x] and
    an int descriptor, its value on [[s * a + t * b for (a, b) in zip(c, d)]]
    is [s] times its value on [c] plus [t] times its value on [d]. *)
Theorem clenshaw_eval_int_linear
  (c d : list Z) (s t x : Z) (basis_0 basis_1 alpha beta : list Z) :
  c <> [] -> len c = len d ->
  exists l vc vd,
    Num.comprehension
      (fun '(a, b) =>
         sa <- Num.mul (Num.Int s) a ;; tb <- Num.mul (Num.Int t) b ;; Num.add sa tb)
      (zip (map Num.Int c) (map Num.Int d)) = Ok l
    /\ Num.clenshaw_eval (map Num.Int c) (Num.Int x)
         (map Num.Int basis_0) (map Num.Int basis_1) (map Num.Int alpha) (map Num.Int beta)
       = Ok (Num.Int vc)
    /\ Num.clenshaw_eval (map Num.Int d) (Num.Int x)
         (map Num.Int basis_0) (map Num.Int basis_1) (map Num.Int alpha) (map Num.Int beta)
       = Ok (Num.Int vd)
    /\ Num.clenshaw_eval l (Num.Int x)
         (map Num.Int basis_0) (map Num.Int basis_1) (map Num.Int alpha) (map Num.Int beta)
       = Ok (Num.Int (s * vc + t * vd)).
Proof.
  intros Hc E.
  destruct (clenshaw_eval_linear c d s t x basis_0 basis_1 alpha beta Hc E)
    as (vc & vd & Hvc & Hvd & Hl).
  exists (map Num.Int (map (fun '(a, b) => s * a + t * b) (zip c d))), vc, vd.
  split; [apply combination_int|].
  rewrite !clenshaw_eval_int, Hvc, Hvd, Hl. repeat split.
Qed.

Lemma clenshaw_eval_int_linear_witness :
  exists l vc vd,
    Num.comprehension
      (fun '(a, b) =>
         sa <- Num.mul (Num.Int 2) a ;; tb <- Num.mul (Num.Int 3) b ;; Num.add sa tb)
      (zip (map Num.Int [1; 2; 3]) (map Num.Int [5; 0; 7])) = Ok l
    /\ Num.clenshaw_eval (map Num.Int [1; 2; 3]) (Num.Int 4)
         (map Num.Int [1]) (map Num.Int [0; 2]) (map Num.Int [0; 2]) (map Num.Int [-1])
       = Ok (Num.Int vc)
    /\ Num.clenshaw_eval (map Num.Int [5; 0; 7]) (Num.Int 4)
         (map Num.Int [1]) (map Num.Int [0; 2]) (map Num.Int [0; 2]) (map Num.Int [-1])
       = Ok (Num.Int vd)
    /\ Num.clenshaw_eval l (Num.Int 4)
         (map Num.Int [1]) (map Num.Int [0; 2]) (map Num.Int [0; 2]) (map Num.Int [-1])
       = Ok (Num.Int (2 * vc + 3 * vd)).
Proof.
  apply (clenshaw_eval_int_linear [1; 2; 3] [5; 0; 7] 2 3 4 [1] [0; 2] [0; 2] [-1]);
    [discriminate | reflexivity].
Defined.

Lemma clenshaw_loop_zeros (a b : Z) (n : nat) : clenshaw_loop a b (repeat 0 n) = (0, 0).
Proof.
  induction n as [|n IH]; [reflexivity|].
  cbn [repeat]. rewrite clenshaw_loop_cons, IH. cbn [fst snd]. f_equal. ring.
Qed.

Lemma clenshaw_loop_trailing_zeros (a b : Z) (cs : list Z) (n : nat) :
  clenshaw_loop a b (cs ++ repeat 0 n) = clenshaw_loop a b cs.
Proof.
  induction cs as [|c cs IH]; cbn [app].
  - rewrite clenshaw_loop_zeros. reflexivity.
  - rewrite !clenshaw_loop_cons, IH. reflexivity.
Qed.

(** On ints: trailing zero coefficients do not change the value of a
    series. *)
Lemma clenshaw_eval_trailing_zeros
  (c : list Z) (n : nat) (x : Z) (basis_0 basis_1 alpha beta : list Z) :
  c <> [] ->
  clenshaw_eval (c ++ repeat 0 n) x basis_0 basis_1 alpha beta
  = clenshaw_eval c x basis_0 basis_1 alpha beta.
Proof.
  destruct c as [|c0 cs]; intros Hc; [contradiction|].
  cbn [app]. rewrite !clenshaw_eval_cons, clenshaw_loop_trailing_zeros. reflexivity.
Qed.

(** X13. On ints trailing zero coefficients do not change the value of a
    series: for a non-empty int list [c], an int [x] and an int descriptor,
    [clenshaw_eval] on [c] followed by any number of int zeros returns the
    int it returns on [c]. *)
Theorem clenshaw_eval_int_trailing_zeros
  (c : list Z) (n : nat) (x : Z) (basis_0 basis_1 alpha beta : list Z) :
  c <> [] ->
  exists v,
    Num.clenshaw_eval (map Num.Int c) (Num.Int x)
      (map Num.Int basis_0) (map Num.Int basis_1) (map Num.Int alpha) (map Num.Int beta)
    = Ok (Num.Int v)
    /\ Num.clenshaw_eval (map Num.Int c ++ repeat (Num.Int 0) n) (Num.Int x)
         (map Num.Int basis_0) (map Num.Int basis_1) (map Num.Int alpha) (map Num.Int beta)
       = Ok (Num.Int v).
Proof.
  intros Hc.
  exists (series_sum c (descriptor_basis basis_0 basis_1 alpha beta x)).
  replace (map Num.Int c ++ repeat (Num.Int 0) n) with (map Num.Int (c ++ repeat 0 n))
    by (rewrite map_app, map_repeat; reflexivity).
  rewrite !clenshaw_eval_int, clenshaw_eval_trailing_zeros by exact Hc.
  rewrite clenshaw_eval_correct by exact Hc. split; reflexivity.
Qed.

Lemma clenshaw_eval_int_trailing_zeros_witness :
  exists v,
    Num.clenshaw_eval (map Num.Int [1; 2; 3]) (Num.Int 4)
      (map Num.Int [1]) (map Num.Int [0; 2]) (map Num.Int [0; 2]) (map Num.Int [-1])
    = Ok (Num.Int v)
    /\ Num.clenshaw_eval (map Num.Int [1; 2; 3] ++ repeat (Num.Int 0) 2) (Num.Int 4)
         (map Num.Int [1]) (map Num.Int [0; 2]) (map Num.Int [0; 2]) (map Num.Int [-1])
       = Ok (Num.Int v).
Proof.
  apply (clenshaw_eval_int_trailing_zeros [1; 2; 3] 2 4 [1] [0; 2] [0; 2] [-1]).
  discriminate.
Defined.

(** ** The expansion of a Chebyshev series into monomials *)




